(** * NanoKVM-Pro web console: the keyboard "paste" dialog

    A shallow embedding of
    [web/src/pages/desktop/menu/keyboard/paste.tsx]: the Russian-to-US
    layout translator, the per-language input validator and the state and
    handlers of the dialog, together with the properties its specification
    states about them and further properties of the code. *)

From Stdlib Require Import ZArith String Ascii List Bool Lia.
Import ListNotations.
Open Scope Z_scope.

(** ** ECMAScript strings

    A string value is a finite sequence of 16-bit code units.  Iterating a
    string ([for ... of], [Array.from]) walks it by code point: a high
    surrogate immediately followed by a low surrogate is delivered as one
    two-unit string, every other unit (unpaired surrogates included) as a
    one-unit string. *)

Module JS.

Definition code_unit := Z.
Definition jsstring := list code_unit.

Definition is_high_surrogate (u : code_unit) : bool :=
  (0xD800 <=? u) && (u <=? 0xDBFF).

Definition is_low_surrogate (u : code_unit) : bool :=
  (0xDC00 <=? u) && (u <=? 0xDFFF).

(** %StringIteratorPrototype%.next, run to exhaustion. *)
Fixpoint string_iterator (s : jsstring) : list jsstring :=
  match s with
  | [] => []
  | first :: rest =>
      match rest with
      | second :: rest' =>
          if is_high_surrogate first && is_low_surrogate second
          then [first; second] :: string_iterator rest'
          else [first] :: string_iterator rest
      | [] => [[first]]
      end
  end.

(** [Array.from(value)] on a string. *)
Definition Array_from (value : jsstring) : list jsstring :=
  string_iterator value.

(** [s.codePointAt(0)]; [None] is [undefined] (only for the empty string). *)
Definition codePointAt0 (s : jsstring) : option Z :=
  match s with
  | [] => None
  | first :: rest =>
      match rest with
      | second :: _ =>
          if is_high_surrogate first && is_low_surrogate second
          then Some ((first - 0xD800) * 0x400 + (second - 0xDC00) + 0x10000)
          else Some first
      | [] => Some first
      end
  end.

(** [a ?? b] on an optional number. *)
Definition nullish {A} (a : option A) (b : A) : A :=
  match a with Some x => x | None => b end.

(** [a === b] on strings: same length and same code units. *)
Fixpoint strict_eq (a b : jsstring) : bool :=
  match a, b with
  | [], [] => true
  | x :: a', y :: b' => (x =? y) && strict_eq a' b'
  | _, _ => false
  end.

(** [parts.join('')]. *)
Definition join (parts : list jsstring) : jsstring := concat parts.

(** ToBoolean on a string: only the empty string is falsy. *)
Definition truthy (s : jsstring) : bool :=
  match s with [] => false | _ :: _ => true end.

(** Own-property lookup [obj[key]] in an object literal given as its list of
    [key: value] entries; [None] is [undefined].  The keys looked up by the
    code below are the lower-case form of one code point or one code point,
    never the name of a property inherited from [Object.prototype]. *)
Fixpoint obj_get (obj : list (jsstring * jsstring)) (key : jsstring)
  : option jsstring :=
  match obj with
  | [] => None
  | (k, v) :: obj' => if strict_eq k key then Some v else obj_get obj' key
  end.

(** *** String literals

    The source text is UTF-8; [lit] turns a literal of this file into the
    code units the same literal denotes in the TypeScript source. *)

Definition utf16_of_point (c : Z) : jsstring :=
  if c <? 0x10000 then [c]
  else [0xD800 + Z.shiftr (c - 0x10000) 10; 0xDC00 + Z.land (c - 0x10000) 0x3FF].

Definition cont (b : Z) : Z := Z.land b 0x3F.

Fixpoint utf8_decode (bs : list Z) : jsstring :=
  match bs with
  | [] => []
  | b0 :: r0 =>
      if b0 <? 0x80 then b0 :: utf8_decode r0
      else
        match r0 with
        | [] => []
        | b1 :: r1 =>
            if b0 <? 0xE0
            then (Z.shiftl (Z.land b0 0x1F) 6 + cont b1) :: utf8_decode r1
            else
              match r1 with
              | [] => []
              | b2 :: r2 =>
                  if b0 <? 0xF0
                  then (Z.shiftl (Z.land b0 0x0F) 12 + Z.shiftl (cont b1) 6
                        + cont b2) :: utf8_decode r2
                  else
                    match r2 with
                    | [] => []
                    | b3 :: r3 =>
                        utf16_of_point
                          (Z.shiftl (Z.land b0 0x07) 18 + Z.shiftl (cont b1) 12
                           + Z.shiftl (cont b2) 6 + cont b3)
                          ++ utf8_decode r3
                    end
              end
        end
  end.

Definition bytes_of (s : string) : list Z :=
  map (fun a => Z.of_nat (nat_of_ascii a)) (list_ascii_of_string s).

Definition lit (s : string) : jsstring := utf8_decode (bytes_of s).

End JS.

Import JS.

(** ** The input validator *)

(** The acceptance test of the Russian branch, as one Boolean expression. *)
Definition ru_accepts (code : Z) : bool :=
  ((code >=? 0x0410) && (code <=? 0x042f))
  || ((code >=? 0x0430) && (code <=? 0x044f))
  || (code =? 0x0401)
  || (code =? 0x0451)
  || ((code >=? 0x20) && (code <=? 0x7e)
      && negb ((code >=? 0x41) && (code <=? 0x5a))
      && negb ((code >=? 0x61) && (code <=? 0x7a))).

(** The body of [for (const ch of value)]: [continue] moves on to the next
    character, [return false] leaves the loop, running off the end returns
    [true]. *)
Fixpoint isValid_loop (isRussian : bool) (chars : list jsstring) : bool :=
  match chars with
  | [] => true
  | ch :: chars' =>
      let code := nullish (codePointAt0 ch) 0 in
      if isRussian then
        if ru_accepts code then isValid_loop isRussian chars' else false
      else
        if code <=? 0x7f then isValid_loop isRussian chars' else false
  end.

Definition isValidForLanguage (value lang : jsstring) : bool :=
  let isRussian := strict_eq lang (lit "ru") in
  isValid_loop isRussian (string_iterator value).

(** ** Case conversion of the host

    [String.prototype.toLowerCase] and [toUpperCase] belong to the JavaScript
    engine, not to this repository.  The translator is verified against any
    engine whose two functions agree with the Unicode case mappings on Basic
    Latin and on the Russian alphabet, applied to a one-unit string; nothing
    is assumed of them on any other argument. *)

Class CaseConversion := {
  toLowerCase : jsstring -> jsstring;
  toUpperCase : jsstring -> jsstring;
  lower_basic_latin : forall u, 0 <= u <= 0x7F ->
    toLowerCase [u] = [if (0x41 <=? u) && (u <=? 0x5A) then u + 0x20 else u];
  lower_russian_capital : forall u, 0x0410 <= u <= 0x042F ->
    toLowerCase [u] = [u + 0x20];
  lower_russian_small : forall u, 0x0430 <= u <= 0x044F ->
    toLowerCase [u] = [u];
  lower_capital_io : toLowerCase [0x0401] = [0x0451];
  lower_small_io : toLowerCase [0x0451] = [0x0451];
  upper_basic_latin : forall u, 0 <= u <= 0x7F ->
    toUpperCase [u] = [if (0x61 <=? u) && (u <=? 0x7A) then u - 0x20 else u];
  upper_russian_small : forall u, 0x0430 <= u <= 0x044F ->
    toUpperCase [u] = [u - 0x20];
  upper_small_io : toUpperCase [0x0451] = [0x0401]
}.

(** An executable engine: the simple case mappings of Basic Latin and of the
    Cyrillic block U+0400..U+045F, unit by unit; every other code unit is
    left alone. *)
Definition simple_lower_unit (u : code_unit) : code_unit :=
  if (0x41 <=? u) && (u <=? 0x5A) then u + 0x20
  else if (0x0410 <=? u) && (u <=? 0x042F) then u + 0x20
  else if (0x0400 <=? u) && (u <=? 0x040F) then u + 0x50
  else u.

Definition simple_upper_unit (u : code_unit) : code_unit :=
  if (0x61 <=? u) && (u <=? 0x7A) then u - 0x20
  else if (0x0430 <=? u) && (u <=? 0x044F) then u - 0x20
  else if (0x0450 <=? u) && (u <=? 0x045F) then u - 0x50
  else u.

#[export] Instance simple_case : CaseConversion.
Proof.
  refine {| toLowerCase := map simple_lower_unit;
            toUpperCase := map simple_upper_unit |};
    try reflexivity; intros u Hu; cbn [map]; f_equal.
  - unfold simple_lower_unit.
    destruct ((0x41 <=? u) && (u <=? 0x5A)) eqn:E; [reflexivity|].
    replace ((0x0410 <=? u) && (u <=? 0x042F)) with false by lia.
    replace ((0x0400 <=? u) && (u <=? 0x040F)) with false by lia.
    reflexivity.
  - unfold simple_lower_unit.
    replace ((0x41 <=? u) && (u <=? 0x5A)) with false by lia.
    replace ((0x0410 <=? u) && (u <=? 0x042F)) with true by lia.
    reflexivity.
  - unfold simple_lower_unit.
    replace ((0x41 <=? u) && (u <=? 0x5A)) with false by lia.
    replace ((0x0410 <=? u) && (u <=? 0x042F)) with false by lia.
    replace ((0x0400 <=? u) && (u <=? 0x040F)) with false by lia.
    reflexivity.
  - unfold simple_upper_unit.
    destruct ((0x61 <=? u) && (u <=? 0x7A)) eqn:E; [reflexivity|].
    replace ((0x0430 <=? u) && (u <=? 0x044F)) with false by lia.
    replace ((0x0450 <=? u) && (u <=? 0x045F)) with false by lia.
    reflexivity.
  - unfold simple_upper_unit.
    replace ((0x61 <=? u) && (u <=? 0x7A)) with false by lia.
    replace ((0x0430 <=? u) && (u <=? 0x044F)) with true by lia.
    reflexivity.
Defined.

(** ** The layout translator *)

Definition letterMap : list (jsstring * jsstring) :=
  [ (lit "ё", lit "`");
    (lit "й", lit "q"); (lit "ц", lit "w"); (lit "у", lit "e");
    (lit "к", lit "r"); (lit "е", lit "t"); (lit "н", lit "y");
    (lit "г", lit "u"); (lit "ш", lit "i"); (lit "щ", lit "o");
    (lit "з", lit "p");
    (lit "х", lit "["); (lit "ъ", lit "]");
    (lit "ф", lit "a"); (lit "ы", lit "s"); (lit "в", lit "d");
    (lit "а", lit "f"); (lit "п", lit "g"); (lit "р", lit "h");
    (lit "о", lit "j"); (lit "л", lit "k"); (lit "д", lit "l");
    (lit "ж", lit ";"); (lit "э", lit "'");
    (lit "я", lit "z"); (lit "ч", lit "x"); (lit "с", lit "c");
    (lit "м", lit "v"); (lit "и", lit "b"); (lit "т", lit "n");
    (lit "ь", lit "m"); (lit "б", lit ","); (lit "ю", lit ".") ].

(** The first key is the quotation mark U+0022. *)
Definition punctuationMap : list (jsstring * jsstring) :=
  [ ([0x22], lit "@"); (lit "№", lit "#"); (lit ";", lit "$");
    (lit ":", lit "^"); (lit "?", lit "&"); (lit "Ё", lit "~");
    (lit "/", lit "|"); (lit ".", lit "/"); (lit ",", lit "?") ].

Section Translator.
Context {host : CaseConversion}.

(** The callback of [.map((ch) => ...)].  [if (letterMap[lower])] is taken
    when the property exists and its value is truthy. *)
Definition translate_char (ch : jsstring) : jsstring :=
  let lower := toLowerCase ch in
  let after_letters :=
    match obj_get punctuationMap ch with
    | Some mapped => if truthy mapped then mapped else ch
    | None => ch
    end in
  match obj_get letterMap lower with
  | Some translated =>
      if truthy translated then
        if strict_eq ch lower then translated else toUpperCase translated
      else after_letters
  | None => after_letters
  end.

Definition translateRuToEnWithPunctuation (value : jsstring) : jsstring :=
  join (map translate_char (Array_from value)).

End Translator.

(** ** The dialog controller

    The component keeps six pieces of state ([useState]); a handler runs to
    completion and each setter call replaces one of them.  The remote paste
    operation is outside this file: the model records the texts handed to
    it, and its promise settles later with a response or a rejection. *)

(** The validity status of the text area: [''] or ['error']. *)
Inductive Status := StatusNone | StatusError.

Record Dialog := {
  isModalOpen : bool;
  inputValue : jsstring;
  language : jsstring;
  status : Status;
  isLoading : bool;
  errMsg : jsstring
}.

(** The response of the paste operation: an integer status code and a
    message. *)
Record Rsp := { code : Z; msg : jsstring }.

(** How the promise returned by [paste] settles. *)
Inductive Settlement := Fulfilled (rsp : Rsp) | Rejected.

(** The dialog together with the calls made to [paste], oldest first. *)
Record World := { ui : Dialog; pasted : list jsstring }.

Definition Handler := World -> World.

Definition seq (f g : Handler) : Handler := fun w => g (f w).
Notation "f ;; g" := (seq f g) (at level 61, right associativity).

Definition update (f : Dialog -> Dialog) : Handler :=
  fun w => {| ui := f (ui w); pasted := pasted w |}.

Definition setIsModalOpen (v : bool) : Handler :=
  update (fun d => {| isModalOpen := v; inputValue := inputValue d;
                      language := language d; status := status d;
                      isLoading := isLoading d; errMsg := errMsg d |}).

Definition setInputValue (v : jsstring) : Handler :=
  update (fun d => {| isModalOpen := isModalOpen d; inputValue := v;
                      language := language d; status := status d;
                      isLoading := isLoading d; errMsg := errMsg d |}).

Definition setLanguage (v : jsstring) : Handler :=
  update (fun d => {| isModalOpen := isModalOpen d; inputValue := inputValue d;
                      language := v; status := status d;
                      isLoading := isLoading d; errMsg := errMsg d |}).

Definition setStatus (v : Status) : Handler :=
  update (fun d => {| isModalOpen := isModalOpen d; inputValue := inputValue d;
                      language := language d; status := v;
                      isLoading := isLoading d; errMsg := errMsg d |}).

Definition setIsLoading (v : bool) : Handler :=
  update (fun d => {| isModalOpen := isModalOpen d; inputValue := inputValue d;
                      language := language d; status := status d;
                      isLoading := v; errMsg := errMsg d |}).

Definition setErrMsg (v : jsstring) : Handler :=
  update (fun d => {| isModalOpen := isModalOpen d; inputValue := inputValue d;
                      language := language d; status := status d;
                      isLoading := isLoading d; errMsg := v |}).

(** [paste(text)]: the request leaves the dialog. *)
Definition paste (text : jsstring) : Handler :=
  fun w => {| ui := ui w; pasted := pasted w ++ [text] |}.

Section Controller.
Context {host : CaseConversion}.

Definition onChange (value : jsstring) : Handler := fun w =>
  (setStatus (if isValidForLanguage value (language (ui w))
              then StatusNone else StatusError) ;;
   setInputValue value) w.

Definition onLanguageChange (value : jsstring) : Handler := fun w =>
  (setLanguage value ;;
   setStatus (if truthy (inputValue (ui w))
              then (if isValidForLanguage (inputValue (ui w)) value
                    then StatusNone else StatusError)
              else StatusNone)) w.

(** The text [submit] hands to [paste]. *)
Definition textToSend (d : Dialog) : jsstring :=
  if strict_eq (language d) (lit "ru")
  then translateRuToEnWithPunctuation (inputValue d)
  else inputValue d.

(** The synchronous part of [submit]. *)
Definition submit : Handler := fun w =>
  if isLoading (ui w) || negb (truthy (inputValue (ui w))) then w
  else (setIsLoading true ;; paste (textToSend (ui w))) w.

(** The callback given to [.then]. *)
Definition on_then (rsp : Rsp) : Handler :=
  if negb (code rsp =? 0) then setErrMsg (msg rsp)
  else setInputValue [] ;; setStatus StatusNone ;; setErrMsg [] ;;
       setIsModalOpen false.

(** The callback given to [.finally]. *)
Definition on_finally : Handler := setIsLoading false.

(** [promise.then(f).finally(g)]: [f] runs only on fulfilment, [g] runs in
    both cases, after [f] when there is one. *)
Definition settle (s : Settlement) : Handler :=
  match s with
  | Fulfilled rsp => on_then rsp ;; on_finally
  | Rejected => on_finally
  end.

(** What can happen to an open dialog. *)
Inductive Event :=
| Change (value : jsstring)
| LanguageChange (value : jsstring)
| Submit
| PasteSettled (s : Settlement).

Definition step (e : Event) : Handler :=
  match e with
  | Change value => onChange value
  | LanguageChange value => onLanguageChange value
  | Submit => submit
  | PasteSettled s => settle s
  end.

Definition run (es : list Event) (w : World) : World :=
  fold_left (fun w e => step e w) es w.

End Controller.

(** ** The vocabulary of the specification *)

(** The code points of a string: UTF-16 decoding, an unpaired surrogate
    counting as the code point of its own value. *)
Fixpoint code_points (s : jsstring) : list Z :=
  match s with
  | [] => []
  | first :: rest =>
      match rest with
      | second :: rest' =>
          if is_high_surrogate first && is_low_surrogate second
          then ((first - 0xD800) * 0x400 + (second - 0xDC00) + 0x10000)
               :: code_points rest'
          else first :: code_points rest
      | [] => [first]
      end
  end.

(** The characters the specification allows under Russian. *)
Definition ru_allowed (c : Z) : Prop :=
  0x0410 <= c <= 0x042F \/ 0x0430 <= c <= 0x044F \/ c = 0x0401 \/ c = 0x0451
  \/ (0x20 <= c <= 0x7E /\ ~ 0x41 <= c <= 0x5A /\ ~ 0x61 <= c <= 0x7A).

(** The characters the specification allows under any other language. *)
Definition plain_ascii (c : Z) : Prop := c <= 0x7F.

(** A lower-case letter of the Russian alphabet, as one code unit. *)
Definition russian_small (k : jsstring) : Prop :=
  exists u, k = [u] /\ (0x0430 <= u <= 0x044F \/ u = 0x0451).

(** ASCII upper-casing of a string. *)
Definition ascii_upper (s : jsstring) : jsstring :=
  map (fun u => if (0x61 <=? u) && (u <=? 0x7A) then u - 0x20 else u) s.

(** An unshifted character of the US layout: one ASCII code unit that is not
    a capital letter. *)
Definition us_unshifted (v : jsstring) : Prop :=
  exists u, v = [u] /\ 0x20 <= u <= 0x7E /\ ~ 0x41 <= u <= 0x5A.

Definition is_ascii_letter (u : code_unit) : bool :=
  ((0x41 <=? u) && (u <=? 0x5A)) || ((0x61 <=? u) && (u <=? 0x7A)).

(** Membership and image in a map, for the specification's wording. *)
Definition has_key (m : list (jsstring * jsstring)) (k : jsstring) : bool :=
  existsb (fun e => strict_eq (fst e) k) m.

Definition image (m : list (jsstring * jsstring)) (k : jsstring) : jsstring :=
  match find (fun e => strict_eq (fst e) k) m with
  | Some e => snd e
  | None => []
  end.

(** The per-character rule as the specification words it. *)
Definition spec_translate_char {host : CaseConversion} (ch : jsstring)
  : jsstring :=
  let lower := toLowerCase ch in
  if has_key letterMap lower then
    if strict_eq ch lower then image letterMap lower
    else ascii_upper (image letterMap lower)
  else if has_key punctuationMap ch then image punctuationMap ch
  else ch.

(** The seven letters of the letter map whose image is not a letter. *)
Definition non_letter_keys : list jsstring :=
  map fst
    (filter (fun e => negb (forallb is_ascii_letter (snd e))) letterMap).

(** The code units on which every engine converts case alike: Basic Latin
    and the Russian alphabet. *)
Definition layout_unit (u : code_unit) : Prop :=
  0 <= u <= 0x7F \/ 0x0410 <= u <= 0x044F \/ u = 0x0401 \/ u = 0x0451.

Definition is_layout_unit (u : code_unit) : bool :=
  ((0 <=? u) && (u <=? 0x7F)) || ((0x0410 <=? u) && (u <=? 0x044F))
  || (u =? 0x0401) || (u =? 0x0451).

(** ** Well-formed sequences of characters

    What the iterator delivers: surrogate pairs and single units, where a
    single high surrogate is never followed by a character that starts with
    a low surrogate. *)

Definition starts_low (chars : list jsstring) : bool :=
  match chars with
  | (v :: _) :: _ => is_low_surrogate v
  | _ => false
  end.

Fixpoint chunked (chars : list jsstring) : Prop :=
  match chars with
  | [] => True
  | ch :: chars' =>
      match ch with
      | [u] => is_high_surrogate u && starts_low chars' = false
      | [u; v] => is_high_surrogate u && is_low_surrogate v = true
      | _ => False
      end /\ chunked chars'
  end.

(** A character that is one unit and no surrogate. *)
Definition plain_char (ch : jsstring) : Prop :=
  exists u, ch = [u] /\ is_high_surrogate u = false
            /\ is_low_surrogate u = false.

(** ** Sample runs

    An open dialog with Russian text typed in, the same dialog after
    switching to English and retyping, and two responses. *)
Definition typing_ru : World :=
  {| ui := {| isModalOpen := true; inputValue := lit "Привет, мир!";
              language := lit "ru"; status := StatusNone;
              isLoading := false; errMsg := [] |};
     pasted := [] |}.

Definition typing_en : World :=
  run [LanguageChange (lit "en"); Change (lit "hello")] typing_ru.

Definition rsp_ok : Rsp := {| code := 0; msg := [] |}.
Definition rsp_busy : Rsp := {| code := -1; msg := lit "device busy" |}.

(** ** Further vocabulary *)

(** The test the validator applies to one code point. *)
Definition accepts_unit (isRussian : bool) (u : code_unit) : bool :=
  if isRussian then ru_accepts u else u <=? 0x7f.

(** A letter of the Russian alphabet, capital or small, as a code unit. *)
Definition russian_letter (u : code_unit) : Prop :=
  0x0410 <= u <= 0x044F \/ u = 0x0401 \/ u = 0x0451.

(** A printable ASCII code unit. *)
Definition printable (u : code_unit) : Prop := 0x20 <= u <= 0x7E.

(** The ASCII characters the punctuation map rewrites:
    quotation mark, comma, full stop, solidus, colon, semicolon and question
    mark. *)
Definition rewritten_ascii (u : code_unit) : Prop :=
  u = 0x22 \/ u = 0x2C \/ u = 0x2E \/ u = 0x2F \/ u = 0x3A \/ u = 0x3B
  \/ u = 0x3F.

(** Joining [s1] and [s2] would make one surrogate pair out of the last unit
    of [s1] and the first unit of [s2]. *)
Definition joins_pair (s1 s2 : jsstring) : bool :=
  is_high_surrogate (last s1 0) && is_low_surrogate (hd 0 s2).

(** A small Russian letter, or a capital one whose small form is not one of
    the seven keys with a non-letter image. *)
Definition shift_safe (u : code_unit) : Prop :=
  (0x0430 <= u <= 0x044F \/ u = 0x0451)
  \/ (0x0410 <= u <= 0x042F /\ ~ In [u + 0x20] non_letter_keys).

Definition is_shift_safe (u : code_unit) : bool :=
  ((0x0430 <=? u) && (u <=? 0x044F)) || (u =? 0x0451)
  || ((0x0410 <=? u) && (u <=? 0x042F)
      && negb (existsb (strict_eq [u + 0x20]) non_letter_keys)).

(** The integers [lo], [lo + 1], ..., [lo + n - 1]. *)
Definition zrange (lo : Z) (n : nat) : list Z :=
  map (fun i => lo + Z.of_nat i) (List.seq 0 n).

(** No integer occurs twice. *)
Fixpoint distinct (l : list Z) : bool :=
  match l with
  | [] => true
  | x :: l' => negb (existsb (Z.eqb x) l') && distinct l'
  end.

(** The one code unit the executable engine translates a one-unit character
    to. *)
Definition simple_key (u : code_unit) : code_unit :=
  hd 0 (translate_char (host := simple_case) [u]).

(** ** The life of the dialog

    The initial values given to [useState], and everything the rendered
    dialog can do: the trigger opens the modal, [onCancel] closes it, and
    the events of the text area, the language selector, the submit button
    and the pending promise. *)

Definition initial : World :=
  {| ui := {| isModalOpen := false; inputValue := []; language := lit "en";
              status := StatusNone; isLoading := false; errMsg := [] |};
     pasted := [] |}.

Inductive Action :=
| Open
| Cancel
| Act (e : Event).

Definition perform {host : CaseConversion} (a : Action) : Handler :=
  match a with
  | Open => setIsModalOpen true
  | Cancel => setIsModalOpen false
  | Act e => step e
  end.

Definition play {host : CaseConversion} (acts : list Action) (w : World)
  : World :=
  fold_left (fun w a => perform a w) acts w.

(** The promise settles. *)
Definition settles (a : Action) : bool :=
  match a with Act (PasteSettled _) => true | _ => false end.

(** The promise is fulfilled with a response. *)
Definition fulfils (a : Action) : bool :=
  match a with Act (PasteSettled (Fulfilled _)) => true | _ => false end.

(** The modal is opened or closed. *)
Definition toggles (a : Action) : bool :=
  match a with Open | Cancel => true | Act _ => false end.

(** What the validator says of the text under the selected language. *)
Definition verdict (d : Dialog) : Status :=
  if isValidForLanguage (inputValue d) (language d)
  then StatusNone else StatusError.

(** A promise settles only while a call is in flight. *)
Fixpoint in_order {host : CaseConversion} (acts : list Action) (w : World)
  : Prop :=
  match acts with
  | [] => True
  | a :: acts' =>
      (settles a = true -> isLoading (ui w) = true)
      /\ in_order acts' (perform a w)
  end.

(** One if a call is in flight, zero otherwise. *)
Definition in_flight (w : World) : nat :=
  if isLoading (ui w) then 1%nat else 0%nat.

(** A session: Russian text is typed and submitted, the button is pressed
    again while the call is in flight, the device answers that it is busy,
    the text is submitted once more and accepted. *)
Definition typing : list Action :=
  [Open; Act (LanguageChange (lit "ru")); Act (Change (lit "Привет"))].

Definition refused : list Action :=
  typing ++ [Act Submit; Act Submit; Act (PasteSettled (Fulfilled rsp_busy))].

Definition session : list Action :=
  refused ++ [Act Submit; Act (PasteSettled (Fulfilled rsp_ok))].

(** * Properties *)

(** ** Literals and iteration on concrete strings *)

Example lit_ascii : lit "ru" = [0x72; 0x75].
Proof. reflexivity. Qed.

Example lit_cyrillic : lit "ёЁя" = [0x0451; 0x0401; 0x044F].
Proof. reflexivity. Qed.

Example lit_numero : lit "№" = [0x2116].
Proof. reflexivity. Qed.

Example iterate_pair :
  string_iterator [0x61; 0xD83D; 0xDE00; 0xDE00; 0xD83D] =
  [[0x61]; [0xD83D; 0xDE00]; [0xDE00]; [0xD83D]].
Proof. reflexivity. Qed.

Example code_points_pair :
  code_points [0x61; 0xD83D; 0xDE00; 0xDE00] = [0x61; 0x1F600; 0xDE00].
Proof. reflexivity. Qed.

(** ** Strings *)

Lemma strict_eq_refl a : strict_eq a a = true.
Proof.
  induction a as [|x a IH]; cbn; [reflexivity|].
  now rewrite Z.eqb_refl, IH.
Qed.

Lemma strict_eq_eq a b : strict_eq a b = true <-> a = b.
Proof.
  split; [|intros ->; apply strict_eq_refl].
  revert b; induction a as [|x a IH]; intros [|y b]; cbn; try easy.
  intros H. apply andb_true_iff in H as [Hx Hab].
  apply Z.eqb_eq in Hx. f_equal; auto.
Qed.

Lemma strict_eq_neq a b : strict_eq a b = false <-> a <> b.
Proof.
  rewrite <- strict_eq_eq. destruct (strict_eq a b); split; congruence.
Qed.

(** Induction that follows the iterator: it consumes one or two units. *)
Lemma units_ind (P : jsstring -> Prop) :
  P [] ->
  (forall u, P [u]) ->
  (forall u v s, P s -> P (v :: s) -> P (u :: v :: s)) ->
  forall s, P s.
Proof.
  intros H0 H1 H2.
  assert (both : forall s, P s /\ forall u, P (u :: s)).
  { induction s as [|v s [IHs IHvs]]; split; auto. }
  intros s; apply both.
Qed.

Lemma string_iterator_cons2 u v s :
  string_iterator (u :: v :: s) =
  if is_high_surrogate u && is_low_surrogate v
  then [u; v] :: string_iterator s
  else [u] :: string_iterator (v :: s).
Proof. reflexivity. Qed.

Lemma code_points_cons2 u v s :
  code_points (u :: v :: s) =
  if is_high_surrogate u && is_low_surrogate v
  then ((u - 0xD800) * 0x400 + (v - 0xDC00) + 0x10000) :: code_points s
  else u :: code_points (v :: s).
Proof. reflexivity. Qed.

(** The characters delivered by the iterator, read with [codePointAt(0)],
    are the code points of the string. *)
Lemma code_points_iterator s :
  map (fun ch => nullish (codePointAt0 ch) 0) (string_iterator s) =
  code_points s.
Proof.
  induction s as [|u|u v s IHs IHvs] using units_ind; try reflexivity.
  rewrite string_iterator_cons2, code_points_cons2.
  destruct (is_high_surrogate u && is_low_surrogate v) eqn:E.
  - cbn [map]. rewrite IHs. cbn. now rewrite E.
  - cbn [map]. rewrite IHvs. reflexivity.
Qed.

(** ** The validator *)

Lemma ru_accepts_allowed c : ru_accepts c = true <-> ru_allowed c.
Proof. unfold ru_accepts, ru_allowed. lia. Qed.

Lemma isValid_loop_ru chars :
  isValid_loop true chars = true <->
  Forall ru_allowed (map (fun ch => nullish (codePointAt0 ch) 0) chars).
Proof.
  induction chars as [|ch chars IH]; cbn [isValid_loop map].
  - split; auto.
  - rewrite Forall_cons_iff, <- IH, <- ru_accepts_allowed.
    destruct (ru_accepts _); intuition congruence.
Qed.

Lemma isValid_loop_other chars :
  isValid_loop false chars = true <->
  Forall plain_ascii (map (fun ch => nullish (codePointAt0 ch) 0) chars).
Proof.
  induction chars as [|ch chars IH]; cbn [isValid_loop map].
  - split; auto.
  - rewrite Forall_cons_iff, <- IH. unfold plain_ascii.
    destruct (Z.leb_spec (nullish (codePointAt0 ch) 0) 0x7f);
      intuition (congruence || lia).
Qed.

(** C1: under ['ru'] a string is valid exactly when every code point is a
    Russian letter (U+0410..U+044F, U+0401, U+0451) or printable ASCII other
    than a Latin letter; so "привет" is valid and "hello" is not. *)
Theorem isValidForLanguage_ru :
  (forall s,
      isValidForLanguage s (lit "ru") = true <->
      Forall ru_allowed (code_points s))
  /\ isValidForLanguage (lit "привет") (lit "ru") = true
  /\ isValidForLanguage (lit "hello") (lit "ru") = false.
Proof.
  split; [|split; reflexivity].
  intros s. unfold isValidForLanguage.
  rewrite strict_eq_refl. cbv zeta.
  now rewrite isValid_loop_ru, code_points_iterator.
Qed.

(** C2: under a language code other than ['ru'] a string is valid exactly
    when every code point is at most U+007F, and the empty string is valid
    under every language code. *)
Theorem isValidForLanguage_other s lang :
  (lang <> lit "ru" ->
   (isValidForLanguage s lang = true <-> Forall plain_ascii (code_points s)))
  /\ isValidForLanguage [] lang = true.
Proof.
  split.
  - intros Hlang. unfold isValidForLanguage.
    apply strict_eq_neq in Hlang. rewrite Hlang. cbv zeta.
    now rewrite isValid_loop_other, code_points_iterator.
  - reflexivity.
Qed.

Lemma isValidForLanguage_other_witness :
  lit "en" <> lit "ru"
  /\ isValidForLanguage (lit "hello world") (lit "en") = true
  /\ Forall plain_ascii (code_points (lit "hello world"))
  /\ isValidForLanguage (lit "привет") (lit "en") = false
  /\ isValidForLanguage [] (lit "en") = true.
Proof.
  assert (Hen : lit "en" <> lit "ru") by (vm_compute; discriminate).
  split; [exact Hen|].
  split; [reflexivity|].
  split.
  - apply (proj1 (isValidForLanguage_other (lit "hello world") (lit "en")) Hen).
    reflexivity.
  - split; [reflexivity|].
    apply (proj2 (isValidForLanguage_other (lit "hello world") (lit "en"))).
Defined.

(** ** Characters and joining *)

Lemma iterator_chunked s : chunked (string_iterator s).
Proof.
  induction s as [|u|u v s IHs IHvs] using units_ind.
  - exact I.
  - cbn. now rewrite andb_false_r.
  - rewrite string_iterator_cons2.
    destruct (is_high_surrogate u && is_low_surrogate v) eqn:E.
    + cbn [chunked]. auto.
    + cbn [chunked]. split; [|exact IHvs].
      destruct (is_high_surrogate u) eqn:Hu; [|reflexivity].
      cbn in E. cbn [andb].
      destruct s as [|w s]; cbn; [exact E|].
      destruct (is_high_surrogate v && is_low_surrogate w); cbn; exact E.
Qed.

Lemma iterator_join chars :
  chunked chars -> string_iterator (join chars) = chars.
Proof.
  unfold join.
  induction chars as [|ch chars IH]; [reflexivity|].
  cbn [chunked concat]. intros [Hch Hrest]. specialize (IH Hrest).
  destruct ch as [|u [|v [|w ch]]]; try contradiction.
  - cbn [app]. destruct (concat chars) as [|x rest] eqn:Ec.
    + cbn in IH. subst chars. reflexivity.
    + rewrite string_iterator_cons2.
      replace (is_high_surrogate u && is_low_surrogate x) with false;
        [now rewrite IH|].
      destruct (is_high_surrogate u); [|reflexivity].
      cbn [andb] in *. symmetry. rewrite <- Hch.
      destruct chars as [|[|y c1] chars]; cbn in *; try discriminate.
      * destruct Hrest as [[] _].
      * congruence.
  - cbn [app]. rewrite string_iterator_cons2, Hch, IH. reflexivity.
Qed.

Lemma starts_low_map (g : jsstring -> jsstring) chars :
  (forall ch, g ch = ch \/ plain_char (g ch)) ->
  starts_low chars = false -> starts_low (map g chars) = false.
Proof.
  intros Hg. destruct chars as [|ch chars]; [reflexivity|].
  cbn [map]. destruct (Hg ch) as [-> | (u & -> & _ & Hl)]; [auto|].
  intros _. exact Hl.
Qed.

Lemma chunked_map (g : jsstring -> jsstring) chars :
  (forall ch, g ch = ch \/ plain_char (g ch)) ->
  chunked chars -> chunked (map g chars).
Proof.
  intros Hg. induction chars as [|ch chars IH]; [easy|].
  cbn [chunked map]. intros [Hch Hrest]. split; [|auto].
  destruct (Hg ch) as [-> | (u & -> & Hh & _)].
  - destruct ch as [|u [|v [|w ch]]]; try contradiction; [|exact Hch].
    destruct (is_high_surrogate u); [|reflexivity].
    cbn [andb] in *. now apply starts_low_map.
  - now rewrite Hh.
Qed.
(** ** The two tables *)

Lemma obj_get_In m k v : obj_get m k = Some v -> In (k, v) m.
Proof.
  induction m as [|[k' v'] m IH]; cbn; [discriminate|].
  destruct (strict_eq k' k) eqn:E.
  - apply strict_eq_eq in E. intros [= <-]. left. now subst.
  - auto.
Qed.

Lemma In_obj_get m k v :
  NoDup (map fst m) -> In (k, v) m -> obj_get m k = Some v.
Proof.
  induction m as [|[k' v'] m IH]; cbn; [easy|].
  intros Hnd [[= -> ->] | Hin].
  - now rewrite strict_eq_refl.
  - inversion Hnd as [|? ? Hnotin Hnd']; subst.
    destruct (strict_eq k' k) eqn:E; [|auto].
    apply strict_eq_eq in E. subst k'.
    exfalso. apply Hnotin. now apply (in_map fst) in Hin.
Qed.

Lemma has_key_get m k :
  obj_get m k = if has_key m k then Some (image m k) else None.
Proof.
  unfold has_key, image.
  induction m as [|[k' v'] m IH]; cbn; [reflexivity|].
  destruct (strict_eq k' k); [reflexivity|exact IH].
Qed.

Lemma letterMap_keys : Forall russian_small (map fst letterMap).
Proof.
  apply Forall_forall. intros k Hk. vm_compute in Hk.
  repeat (destruct Hk as [<-|Hk]; [eexists; split; [reflexivity|lia]|]).
  contradiction.
Qed.

Lemma letterMap_values : Forall us_unshifted (map snd letterMap).
Proof.
  apply Forall_forall. intros k Hk. vm_compute in Hk.
  repeat (destruct Hk as [<-|Hk]; [eexists; split; [reflexivity|lia]|]).
  contradiction.
Qed.

Lemma punctuationMap_values : Forall us_unshifted (map snd punctuationMap).
Proof.
  apply Forall_forall. intros k Hk. vm_compute in Hk.
  repeat (destruct Hk as [<-|Hk]; [eexists; split; [reflexivity|lia]|]).
  contradiction.
Qed.

Lemma letterMap_keys_NoDup : NoDup (map fst letterMap).
Proof.
  apply (NoDup_map_inv (fun k => nth 0 k 0)).
  vm_compute.
  repeat (constructor; [cbn; intuition discriminate|]).
  constructor.
Qed.

Lemma letterMap_values_NoDup : NoDup (map snd letterMap).
Proof.
  apply (NoDup_map_inv (fun k => nth 0 k 0)).
  vm_compute.
  repeat (constructor; [cbn; intuition discriminate|]).
  constructor.
Qed.

Lemma get_value (m : list (jsstring * jsstring)) k v :
  Forall us_unshifted (map snd m) -> obj_get m k = Some v -> us_unshifted v.
Proof.
  intros Hall Hget. apply obj_get_In in Hget.
  rewrite Forall_forall in Hall. apply Hall.
  now apply (in_map snd) in Hget.
Qed.

Lemma us_unshifted_truthy v : us_unshifted v -> truthy v = true.
Proof. now intros (u & -> & _). Qed.

Lemma us_unshifted_plain v : us_unshifted v -> plain_char v.
Proof.
  intros (u & -> & Hu & _). exists u.
  unfold is_high_surrogate, is_low_surrogate. repeat split; lia.
Qed.

Lemma ascii_upper_plain u :
  0x20 <= u <= 0x7E -> plain_char (ascii_upper [u]).
Proof.
  intros Hu. eexists; split; [reflexivity|].
  unfold is_high_surrogate, is_low_surrogate.
  destruct ((0x61 <=? u) && (u <=? 0x7A)); split; lia.
Qed.

(** ** The translator against any engine *)

Section TranslatorFacts.
Context {host : CaseConversion}.

Lemma toUpperCase_value v : us_unshifted v -> toUpperCase v = ascii_upper v.
Proof.
  intros (u & -> & Hu & _). apply upper_basic_latin. lia.
Qed.

Lemma toLowerCase_layout u :
  layout_unit u -> toLowerCase [u] = [simple_lower_unit u].
Proof.
  unfold layout_unit, simple_lower_unit. intros Hu.
  destruct ((0x41 <=? u) && (u <=? 0x5A)) eqn:E1.
  - rewrite lower_basic_latin by lia. now rewrite E1.
  - destruct ((0x0410 <=? u) && (u <=? 0x042F)) eqn:E2.
    + apply lower_russian_capital. lia.
    + destruct ((0x0400 <=? u) && (u <=? 0x040F)) eqn:E3.
      * assert (u = 0x0401) as -> by lia. apply lower_capital_io.
      * destruct (Z.eq_dec u 0x0451) as [->|]; [apply lower_small_io|].
        destruct (Z_le_dec u 0x7F).
        -- rewrite lower_basic_latin by lia. now rewrite E1.
        -- apply lower_russian_small. lia.
Qed.

(** The callback is the rule of the specification. *)
Lemma translate_char_spec ch : translate_char ch = spec_translate_char ch.
Proof.
  unfold translate_char, spec_translate_char. cbv zeta.
  rewrite (has_key_get letterMap), (has_key_get punctuationMap).
  destruct (has_key letterMap (toLowerCase ch)) eqn:Hl.
  - assert (Hv : us_unshifted (image letterMap (toLowerCase ch))).
    { apply (get_value letterMap (toLowerCase ch)); [apply letterMap_values|].
      now rewrite has_key_get, Hl. }
    rewrite (us_unshifted_truthy _ Hv), (toUpperCase_value _ Hv).
    reflexivity.
  - destruct (has_key punctuationMap ch) eqn:Hp; [|reflexivity].
    assert (Hv : us_unshifted (image punctuationMap ch)).
    { apply (get_value punctuationMap ch); [apply punctuationMap_values|].
      now rewrite has_key_get, Hp. }
    now rewrite (us_unshifted_truthy _ Hv).
Qed.

(** A character is kept, or replaced by one ASCII character. *)
Lemma translate_char_shape ch :
  translate_char ch = ch \/ plain_char (translate_char ch).
Proof.
  rewrite translate_char_spec. unfold spec_translate_char. cbv zeta.
  destruct (has_key letterMap (toLowerCase ch)) eqn:Hl.
  - right.
    assert (Hv : us_unshifted (image letterMap (toLowerCase ch))).
    { apply (get_value letterMap (toLowerCase ch)); [apply letterMap_values|].
      now rewrite has_key_get, Hl. }
    destruct (strict_eq ch (toLowerCase ch)).
    + now apply us_unshifted_plain.
    + destruct Hv as (u & -> & Hu & _). now apply ascii_upper_plain.
  - destruct (has_key punctuationMap ch) eqn:Hp; [right|now left].
    apply us_unshifted_plain.
    apply (get_value punctuationMap ch); [apply punctuationMap_values|].
    now rewrite has_key_get, Hp.
Qed.

(** Iterating the result gives back the translated characters one by one. *)
Lemma translate_characters s :
  Array_from (translateRuToEnWithPunctuation s) =
  map translate_char (Array_from s).
Proof.
  unfold translateRuToEnWithPunctuation, Array_from.
  apply iterator_join, chunked_map;
    [apply translate_char_shape|apply iterator_chunked].
Qed.

End TranslatorFacts.

(** On Basic Latin and the Russian alphabet the engine does not matter. *)
Lemma translate_char_layout {host : CaseConversion} u :
  layout_unit u -> translate_char [u] = translate_char (host := simple_case) [u].
Proof.
  intros Hu. rewrite !translate_char_spec. unfold spec_translate_char.
  rewrite !toLowerCase_layout by assumption. reflexivity.
Qed.

Lemma layout_unit_plain u : layout_unit u -> is_high_surrogate u = false.
Proof. unfold layout_unit, is_high_surrogate. lia. Qed.

Lemma iterator_layout s :
  Forall layout_unit s -> string_iterator s = map (fun u => [u]) s.
Proof.
  induction s as [|u s IH]; [reflexivity|].
  intros Hall. inversion Hall as [|? ? Hu Hs]; subst.
  specialize (IH Hs). destruct s as [|v s]; [reflexivity|].
  rewrite string_iterator_cons2, (layout_unit_plain u Hu), IH.
  reflexivity.
Qed.

Lemma translate_layout {host : CaseConversion} s :
  Forall layout_unit s ->
  translateRuToEnWithPunctuation s =
  translateRuToEnWithPunctuation (host := simple_case) s.
Proof.
  intros Hall. unfold translateRuToEnWithPunctuation, Array_from.
  rewrite (iterator_layout s Hall), !map_map. f_equal.
  apply map_ext_in. intros u Hin. apply translate_char_layout.
  rewrite Forall_forall in Hall. auto.
Qed.

Lemma layout_units_check s :
  forallb is_layout_unit s = true -> Forall layout_unit s.
Proof.
  rewrite forallb_forall, Forall_forall. intros H u Hu.
  specialize (H u Hu). unfold is_layout_unit in H. unfold layout_unit. lia.
Qed.

Ltac layout := apply layout_units_check; vm_compute; reflexivity.

(** Move every translation in the goal to the executable engine. *)
Ltac to_simple host :=
  repeat match goal with
         | |- context [@translateRuToEnWithPunctuation host ?s] =>
             rewrite (@translate_layout host s) by layout
         end.

(** C3: the translator works character by character with the rule of the
    specification (letter map on the lower-case form, ASCII upper-casing
    when the character was not lower-case, then the punctuation map, else
    the character itself); a capital Russian letter gives the ASCII capital
    of its letter's image; "Привет, мир!" becomes "Ghbdtn? vbh!". *)
Theorem translate_per_character {host : CaseConversion} :
  (forall s,
      translateRuToEnWithPunctuation s =
      join (map spec_translate_char (Array_from s)))
  /\ (forall c v,
         In (c, v) letterMap ->
         translateRuToEnWithPunctuation (toUpperCase c) = ascii_upper v)
  /\ translateRuToEnWithPunctuation (lit "Привет, мир!") = lit "Ghbdtn? vbh!".
Proof.
  split; [|split].
  - intros s. unfold translateRuToEnWithPunctuation. f_equal.
    apply map_ext, translate_char_spec.
  - intros c v Hin. vm_compute in Hin.
    repeat (destruct Hin as [[= <- <-]|Hin];
            [first [rewrite upper_small_io
                   |rewrite upper_russian_small by lia];
             rewrite translate_layout by layout; vm_compute; reflexivity|]).
    contradiction.
  - rewrite translate_layout by layout. vm_compute. reflexivity.
Qed.

Lemma translate_per_character_witness :
  In (lit "п", lit "g") letterMap
  /\ translateRuToEnWithPunctuation (host := simple_case)
       (toUpperCase (lit "п")) = lit "G".
Proof.
  assert (Hin : In (lit "п", lit "g") letterMap) by (vm_compute; tauto).
  split; [exact Hin|].
  exact (proj1 (proj2 (translate_per_character (host := simple_case)))
           (lit "п") (lit "g") Hin).
Defined.

(** C4: the translator is a total function and its result has as many code
    points as its argument. *)
Theorem translate_preserves_length {host : CaseConversion} s :
  length (code_points (translateRuToEnWithPunctuation s)) =
  length (code_points s).
Proof.
  rewrite <- !code_points_iterator, !length_map.
  change (length (Array_from (translateRuToEnWithPunctuation s)) =
          length (Array_from s)).
  now rewrite translate_characters, length_map.
Qed.

Lemma translate_preserves_length_witness :
  length (code_points
            (translateRuToEnWithPunctuation (host := simple_case)
               [0xD83D; 0xDE00; 0x0416; 0x2C; 0xDC00])) = 4%nat.
Proof.
  exact (translate_preserves_length (host := simple_case)
           [0xD83D; 0xDE00; 0x0416; 0x2C; 0xDC00]).
Defined.

Lemma NoDup_snd_injective (m : list (jsstring * jsstring)) k1 k2 v :
  NoDup (map snd m) -> In (k1, v) m -> In (k2, v) m -> k1 = k2.
Proof.
  induction m as [|[k v'] m IH]; cbn; [easy|].
  intros Hnd H1 H2. inversion Hnd as [|? ? Hnotin Hnd']; subst.
  destruct H1 as [E1|H1], H2 as [E2|H2].
  - congruence.
  - injection E1 as -> ->.
    exfalso. apply Hnotin. now apply (in_map snd) in H2.
  - injection E2 as -> ->.
    exfalso. apply Hnotin. now apply (in_map snd) in H1.
  - auto.
Qed.

Lemma NoDup_fst_functional (m : list (jsstring * jsstring)) k v1 v2 :
  NoDup (map fst m) -> In (k, v1) m -> In (k, v2) m -> v1 = v2.
Proof.
  intros Hnd H1 H2.
  apply (In_obj_get m k v1 Hnd) in H1. apply (In_obj_get m k v2 Hnd) in H2.
  congruence.
Qed.

(** C8: the letter map has 33 entries, its keys are distinct lower-case
    Russian letters, its values are unshifted characters of the US layout,
    and it is one-to-one: a key has one value and no two keys share a
    value. *)
Theorem letterMap_bijective :
  length letterMap = 33%nat
  /\ NoDup (map fst letterMap)
  /\ Forall russian_small (map fst letterMap)
  /\ Forall us_unshifted (map snd letterMap)
  /\ (forall k v1 v2,
         In (k, v1) letterMap -> In (k, v2) letterMap -> v1 = v2)
  /\ (forall k1 k2 v,
         In (k1, v) letterMap -> In (k2, v) letterMap -> k1 = k2).
Proof.
  split; [reflexivity|].
  split; [apply letterMap_keys_NoDup|].
  split; [apply letterMap_keys|].
  split; [apply letterMap_values|].
  split.
  - intros k v1 v2. apply NoDup_fst_functional, letterMap_keys_NoDup.
  - intros k1 k2 v. apply NoDup_snd_injective, letterMap_values_NoDup.
Qed.

Lemma letterMap_bijective_witness :
  In (lit "ж", lit ";") letterMap /\ lit "ж" = lit "ж".
Proof.
  assert (Hin : In (lit "ж", lit ";") letterMap) by (vm_compute; tauto).
  split; [exact Hin|].
  exact (proj2 (proj2 (proj2 (proj2 (proj2 letterMap_bijective))))
           (lit "ж") (lit "ж") (lit ";") Hin Hin).
Defined.

(** ** Shift level of the non-letter keys *)

Section ShiftLevel.
Context {host : CaseConversion}.

Lemma translate_char_capital_io : translate_char (lit "Ё") = lit "`".
Proof.
  change (lit "Ё") with [0x0401].
  rewrite translate_char_layout by (unfold layout_unit; lia).
  reflexivity.
Qed.

(** A tilde in the result is a tilde of the argument. *)
Lemma translate_char_tilde ch : translate_char ch = lit "~" -> ch = lit "~".
Proof.
  rewrite translate_char_spec. unfold spec_translate_char. cbv zeta.
  destruct (has_key letterMap (toLowerCase ch)) eqn:Hl.
  - assert (Hin : In (image letterMap (toLowerCase ch)) (map snd letterMap)).
    { apply (in_map snd _ (toLowerCase ch, _)), obj_get_In.
      now rewrite has_key_get, Hl. }
    revert Hin. generalize (image letterMap (toLowerCase ch)). intros v Hin.
    vm_compute in Hin.
    destruct (strict_eq ch (toLowerCase ch));
      repeat (destruct Hin as [<-|Hin]; [vm_compute; discriminate|]);
      contradiction.
  - destruct (has_key punctuationMap ch) eqn:Hp; [|auto].
    intros Himg. exfalso.
    assert (Hin : In (ch, lit "~") punctuationMap).
    { apply obj_get_In. now rewrite has_key_get, Hp, Himg. }
    vm_compute in Hin.
    repeat (destruct Hin as [[= <-]|Hin]; try discriminate).
    + change [1025] with [0x0401] in Hl. rewrite lower_capital_io in Hl.
      vm_compute in Hl. discriminate.
    + contradiction.
Qed.

End ShiftLevel.

(** C10: a capital Ё is translated by the letter map, to a backquote, so the
    punctuation entry Ё -> ~ is never used: wherever the argument has Ё the
    result has a backquote, and a tilde of the result was a tilde of the
    argument.  The seven letters whose image is not a letter are ё х ъ ж э б
    ю; for each of them the capital and the small letter give the same
    character, so the translator is not one-to-one. *)
Theorem capital_io_never_tilde {host : CaseConversion} :
  translateRuToEnWithPunctuation (lit "Ё") = lit "`"
  /\ (forall s i,
         nth_error (Array_from s) i = Some (lit "Ё") ->
         nth_error (Array_from (translateRuToEnWithPunctuation s)) i =
         Some (lit "`"))
  /\ (forall s i,
         nth_error (Array_from (translateRuToEnWithPunctuation s)) i =
         Some (lit "~") ->
         nth_error (Array_from s) i = Some (lit "~"))
  /\ non_letter_keys =
     [lit "ё"; lit "х"; lit "ъ"; lit "ж"; lit "э"; lit "б"; lit "ю"]
  /\ (forall k,
         In k non_letter_keys ->
         translateRuToEnWithPunctuation (toUpperCase k) =
         translateRuToEnWithPunctuation k
         /\ translateRuToEnWithPunctuation k = image letterMap k)
  /\ translateRuToEnWithPunctuation (lit "Ж") = lit ";"
  /\ translateRuToEnWithPunctuation (lit "ж") = lit ";"
  /\ (exists s1 s2,
         s1 <> s2 /\
         translateRuToEnWithPunctuation s1 = translateRuToEnWithPunctuation s2).
Proof.
  assert (Hcap : translateRuToEnWithPunctuation (lit "Ж") = lit ";")
    by (rewrite translate_layout by layout; reflexivity).
  assert (Hsmall : translateRuToEnWithPunctuation (lit "ж") = lit ";")
    by (rewrite translate_layout by layout; reflexivity).
  split; [rewrite translate_layout by layout; reflexivity|].
  split.
  { intros s i Hi.
    rewrite translate_characters, nth_error_map, Hi. cbn [option_map].
    now rewrite translate_char_capital_io. }
  split.
  { intros s i. rewrite translate_characters, nth_error_map.
    destruct (nth_error (Array_from s) i) as [ch|]; [|discriminate].
    cbn [option_map]. intros [= Hch].
    now rewrite (translate_char_tilde ch Hch). }
  split; [reflexivity|].
  split.
  { intros k Hk. vm_compute in Hk.
    repeat (destruct Hk as [<-|Hk];
            [first [rewrite upper_small_io
                   |rewrite upper_russian_small by lia];
             to_simple host; split; reflexivity|]).
    contradiction. }
  split; [exact Hcap|].
  split; [exact Hsmall|].
  exists (lit "Ж"), (lit "ж"). split; [vm_compute; discriminate|].
  now rewrite Hcap, Hsmall.
Qed.

Lemma capital_io_never_tilde_witness :
  nth_error (Array_from (lit "Ёж")) 0 = Some (lit "Ё")
  /\ nth_error
       (Array_from
          (translateRuToEnWithPunctuation (host := simple_case) (lit "Ёж"))) 0 =
     Some (lit "`").
Proof.
  assert (Hi : nth_error (Array_from (lit "Ёж")) 0 = Some (lit "Ё"))
    by reflexivity.
  split; [exact Hi|].
  exact (proj1 (proj2 (capital_io_never_tilde (host := simple_case)))
           (lit "Ёж") 0%nat Hi).
Defined.

(** ** The dialog controller *)

Section ControllerFacts.
Context {host : CaseConversion}.

Lemma truthy_nonempty s : truthy s = true <-> s <> [].
Proof. destruct s; cbn; split; congruence. Qed.

(** A submission that passes the guard raises the loading flag, makes one
    call and touches nothing else. *)
Lemma submit_accepted w :
  isLoading (ui w) = false -> inputValue (ui w) <> [] ->
  submit w = (setIsLoading true ;; paste (textToSend (ui w))) w.
Proof.
  intros Hl Hv. unfold submit.
  apply truthy_nonempty in Hv. now rewrite Hl, Hv.
Qed.

(** C5: when the paste operation answers with code 0 the text, the validity
    status and the error message are cleared and the modal is closed; with
    any other code the error message becomes the message of the response
    while the text and the modal flag stay as they were. *)
Theorem settle_fulfilled rsp w :
  (code rsp = 0 ->
   inputValue (ui (settle (Fulfilled rsp) w)) = []
   /\ status (ui (settle (Fulfilled rsp) w)) = StatusNone
   /\ errMsg (ui (settle (Fulfilled rsp) w)) = []
   /\ isModalOpen (ui (settle (Fulfilled rsp) w)) = false)
  /\ (code rsp <> 0 ->
      errMsg (ui (settle (Fulfilled rsp) w)) = msg rsp
      /\ inputValue (ui (settle (Fulfilled rsp) w)) = inputValue (ui w)
      /\ isModalOpen (ui (settle (Fulfilled rsp) w)) = isModalOpen (ui w)).
Proof.
  unfold settle, on_then, on_finally, seq. split; intros Hcode.
  - rewrite Hcode. cbn. auto.
  - apply Z.eqb_neq in Hcode. rewrite Hcode. cbn. auto.
Qed.

(** C6: a submission that passes the guard hands to the paste operation the
    translated text when the language is ['ru'] and the text itself
    otherwise. *)
Theorem submit_sends w :
  isLoading (ui w) = false -> inputValue (ui w) <> [] ->
  (language (ui w) = lit "ru" ->
   pasted (submit w) =
   pasted w ++ [translateRuToEnWithPunctuation (inputValue (ui w))])
  /\ (language (ui w) <> lit "ru" ->
      pasted (submit w) = pasted w ++ [inputValue (ui w)]).
Proof.
  intros Hl Hv. rewrite (submit_accepted w Hl Hv).
  unfold seq, paste, textToSend. cbn [pasted setIsLoading update ui].
  split; intros Hlang.
  - apply strict_eq_eq in Hlang. now rewrite Hlang.
  - apply strict_eq_neq in Hlang. now rewrite Hlang.
Qed.

(** C7: while a submission is in flight, or when the text is empty, submit
    makes no call and changes nothing. *)
Theorem submit_guard w :
  isLoading (ui w) = true \/ inputValue (ui w) = [] -> submit w = w.
Proof.
  unfold submit. intros [Hl | Hv].
  - now rewrite Hl.
  - rewrite Hv. cbn. now rewrite orb_true_r.
Qed.

(** C9: however the promise settles, the loading flag is cleared. *)
Theorem settle_clears_loading s w : isLoading (ui (settle s w)) = false.
Proof. destruct s; reflexivity. Qed.

End ControllerFacts.

Lemma settle_fulfilled_witness :
  (code rsp_ok = 0
   /\ inputValue (ui (settle (Fulfilled rsp_ok) (submit typing_ru))) = []
   /\ status (ui (settle (Fulfilled rsp_ok) (submit typing_ru))) = StatusNone
   /\ errMsg (ui (settle (Fulfilled rsp_ok) (submit typing_ru))) = []
   /\ isModalOpen (ui (settle (Fulfilled rsp_ok) (submit typing_ru))) = false)
  /\ (code rsp_busy <> 0
      /\ errMsg (ui (settle (Fulfilled rsp_busy) (submit typing_ru))) =
         lit "device busy"
      /\ inputValue (ui (settle (Fulfilled rsp_busy) (submit typing_ru))) =
         lit "Привет, мир!"
      /\ isModalOpen (ui (settle (Fulfilled rsp_busy) (submit typing_ru))) =
         true).
Proof.
  assert (Hok : code rsp_ok = 0) by reflexivity.
  assert (Hbusy : code rsp_busy <> 0) by (cbn; lia).
  split; (split; [assumption|]).
  - exact (proj1 (settle_fulfilled rsp_ok (submit typing_ru)) Hok).
  - exact (proj2 (settle_fulfilled rsp_busy (submit typing_ru)) Hbusy).
Defined.

Lemma submit_sends_witness :
  pasted (submit typing_ru) = [lit "Ghbdtn? vbh!"]
  /\ pasted (submit typing_en) = [lit "hello"].
Proof.
  split.
  - exact (proj1 (submit_sends typing_ru eq_refl
                    ltac:(vm_compute; discriminate)) eq_refl).
  - exact (proj2 (submit_sends typing_en eq_refl
                    ltac:(vm_compute; discriminate))
             ltac:(vm_compute; discriminate)).
Defined.

Lemma submit_guard_witness :
  isLoading (ui (submit typing_ru)) = true
  /\ submit (submit typing_ru) = submit typing_ru.
Proof.
  assert (Hl : isLoading (ui (submit typing_ru)) = true) by reflexivity.
  split; [exact Hl|].
  exact (submit_guard (submit typing_ru) (or_introl Hl)).
Defined.

(** * Further properties *)

(** ** Iteration *)

Lemma range_check (P : Z -> bool) lo n :
  forallb P (zrange lo n) = true ->
  forall u, lo <= u < lo + Z.of_nat n -> P u = true.
Proof.
  unfold zrange. rewrite forallb_forall. intros H u Hu. apply H.
  apply in_map_iff. exists (Z.to_nat (u - lo)). split; [lia|].
  apply in_seq. lia.
Qed.

Lemma distinct_NoDup l : distinct l = true -> NoDup l.
Proof.
  induction l as [|x l IH]; cbn; [constructor|].
  intros H. apply andb_true_iff in H as [Hx Hl].
  constructor; [|auto].
  intros Hin. apply negb_true_iff in Hx.
  assert (existsb (Z.eqb x) l = true); [|congruence].
  apply existsb_exists. exists x. split; [exact Hin|apply Z.eqb_refl].
Qed.

Lemma NoDup_map_injective {A B} (f : A -> B) l x y :
  NoDup (map f l) -> In x l -> In y l -> f x = f y -> x = y.
Proof.
  induction l as [|a l IH]; cbn; [easy|].
  intros Hnd Hx Hy E. inversion Hnd as [|? ? Hnotin Hnd']; subst.
  destruct Hx as [->|Hx], Hy as [->|Hy]; auto.
  - exfalso. apply Hnotin. rewrite E. now apply in_map.
  - exfalso. apply Hnotin. rewrite <- E. now apply in_map.
Qed.

Lemma iterator_concat s : concat (string_iterator s) = s.
Proof.
  induction s as [|u|u v s IHs IHvs] using units_ind; try reflexivity.
  rewrite string_iterator_cons2.
  destruct (is_high_surrogate u && is_low_surrogate v); cbn [concat app].
  - now rewrite IHs.
  - now rewrite IHvs.
Qed.

Lemma iterator_nil s : string_iterator s = [] -> s = [].
Proof. intros H. now rewrite <- (iterator_concat s), H. Qed.

Lemma surrogates_disjoint u :
  is_low_surrogate u = true -> is_high_surrogate u = false.
Proof. unfold is_low_surrogate, is_high_surrogate. lia. Qed.

Lemma iterator_app s1 s2 :
  joins_pair s1 s2 = false ->
  string_iterator (s1 ++ s2) = string_iterator s1 ++ string_iterator s2.
Proof.
  unfold joins_pair.
  induction s1 as [|u|u v s IHs IHvs] using units_ind; intros Hb.
  - reflexivity.
  - cbn [last] in Hb. destruct s2 as [|w s2]; [reflexivity|].
    cbn [hd] in Hb. cbn [app]. rewrite string_iterator_cons2, Hb.
    reflexivity.
  - change ((u :: v :: s) ++ s2) with (u :: v :: (s ++ s2)).
    rewrite !string_iterator_cons2.
    destruct (is_high_surrogate u && is_low_surrogate v) eqn:E.
    + cbn [app]. f_equal. apply IHs.
      destruct s as [|w s]; [reflexivity|exact Hb].
    + cbn [app]. f_equal. apply IHvs. exact Hb.
Qed.

(** ** The validator, unit by unit *)

Lemma isValid_loop_units b s :
  isValid_loop b (string_iterator s) = forallb (accepts_unit b) s.
Proof.
  induction s as [|u|u v s IHs IHvs] using units_ind.
  - reflexivity.
  - cbn. unfold accepts_unit.
    destruct b; [destruct (ru_accepts u)|destruct (u <=? 0x7f)]; reflexivity.
  - rewrite string_iterator_cons2.
    destruct (is_high_surrogate u && is_low_surrogate v) eqn:E.
    + assert (Hu : accepts_unit b u = false).
      { unfold accepts_unit, ru_accepts.
        unfold is_high_surrogate, is_low_surrogate in E. destruct b; lia. }
      cbn [forallb]. rewrite Hu. cbn [andb isValid_loop].
      cbn [codePointAt0 nullish]. rewrite E. cbn [nullish].
      unfold is_high_surrogate, is_low_surrogate in E.
      destruct b.
      * replace (ru_accepts _) with false; [reflexivity|].
        unfold ru_accepts. lia.
      * replace (_ <=? 0x7f) with false; [reflexivity|]. lia.
    + cbn [isValid_loop forallb]. rewrite IHvs. cbn [forallb].
      cbn [codePointAt0 nullish]. unfold accepts_unit.
      destruct b; [destruct (ru_accepts u)|destruct (u <=? 0x7f)];
        reflexivity.
Qed.

Lemma isValidForLanguage_units s lang :
  isValidForLanguage s lang =
  forallb (accepts_unit (strict_eq lang (lit "ru"))) s.
Proof. unfold isValidForLanguage. cbv zeta. apply isValid_loop_units. Qed.

(** X1: a concatenation is valid exactly when both parts are, whatever the
    language and wherever the cut falls. *)
Theorem isValidForLanguage_app s1 s2 lang :
  isValidForLanguage (s1 ++ s2) lang =
  isValidForLanguage s1 lang && isValidForLanguage s2 lang.
Proof.
  rewrite !isValidForLanguage_units. apply forallb_app.
Qed.

(** X2: under ['ru'] a string that holds a control character (line feed and
    tab among them), DEL or a surrogate is invalid, while under any other
    language a control character or DEL never makes a string invalid. *)
Theorem control_characters s1 u s2 :
  u < 0x20 \/ u = 0x7F \/ 0xD800 <= u <= 0xDFFF ->
  isValidForLanguage (s1 ++ u :: s2) (lit "ru") = false
  /\ (u <= 0x7F ->
      forall lang, lang <> lit "ru" ->
      isValidForLanguage (s1 ++ u :: s2) lang =
      isValidForLanguage (s1 ++ s2) lang).
Proof.
  intros Hu. split.
  - rewrite isValidForLanguage_units, strict_eq_refl, forallb_app.
    cbn [forallb]. replace (accepts_unit true u) with false.
    + now rewrite andb_false_r.
    + unfold accepts_unit, ru_accepts. lia.
  - intros Hascii lang Hlang. apply strict_eq_neq in Hlang.
    rewrite !isValidForLanguage_units, Hlang, !forallb_app.
    cbn [forallb]. replace (accepts_unit false u) with true.
    + reflexivity.
    + unfold accepts_unit. lia.
Qed.

Lemma control_characters_witness :
  isValidForLanguage (lit "да" ++ 0x0A :: lit "нет") (lit "ru") = false
  /\ isValidForLanguage (lit "yes" ++ 0x0A :: lit "no") (lit "en") = true.
Proof.
  pose proof (control_characters (lit "да") 0x0A (lit "нет")
                ltac:(left; lia)) as [Hru _].
  pose proof (control_characters (lit "yes") 0x0A (lit "no")
                ltac:(left; lia)) as [_ Hen].
  split; [exact Hru|].
  etransitivity; [apply Hen; [lia|vm_compute; discriminate]|reflexivity].
Defined.

(** ** The translator on whole texts *)

Lemma iterator_shapes s :
  Forall (fun ch => (exists u, ch = [u])
                    \/ (exists u v, ch = [u; v]
                                    /\ is_high_surrogate u = true
                                    /\ is_low_surrogate v = true))
         (string_iterator s).
Proof.
  induction s as [|u|u v s IHs IHvs] using units_ind.
  - constructor.
  - repeat constructor. eauto.
  - rewrite string_iterator_cons2.
    destruct (is_high_surrogate u && is_low_surrogate v) eqn:E.
    + apply andb_true_iff in E. constructor; [right; eauto|exact IHs].
    + constructor; [left; eauto|exact IHvs].
Qed.

Lemma small_letters_are_keys u :
  0x0430 <= u <= 0x044F \/ u = 0x0451 -> has_key letterMap [u] = true.
Proof.
  intros [Hu | ->]; [|reflexivity].
  apply (range_check (fun u => has_key letterMap [u]) 0x0430 32);
    [vm_compute; reflexivity|lia].
Qed.

Lemma shift_safe_layout u : shift_safe u -> layout_unit u.
Proof. unfold shift_safe, layout_unit. lia. Qed.

Lemma shift_safe_iff u : is_shift_safe u = true <-> shift_safe u.
Proof.
  unfold is_shift_safe, shift_safe.
  assert (Hex : existsb (strict_eq [u + 0x20]) non_letter_keys = true <->
                In [u + 0x20] non_letter_keys).
  { rewrite existsb_exists. split.
    - intros (k & Hk & E). apply strict_eq_eq in E. now subst.
    - intros Hin. exists [u + 0x20]. split; [exact Hin|apply strict_eq_refl]. }
  destruct (existsb (strict_eq [u + 0x20]) non_letter_keys).
  - assert (In [u + 0x20] non_letter_keys) by now apply Hex.
    cbn [negb]. rewrite andb_false_r, orb_false_r. split; [lia|].
    intros [H1 | [_ H2]]; [lia|contradiction].
  - assert (~ In [u + 0x20] non_letter_keys).
    { intros Hin. apply Hex in Hin. discriminate. }
    cbn [negb]. rewrite andb_true_r. split; [|lia].
    intros H1.
    destruct (Z_le_dec 0x0430 u); [left; lia|right; split; [lia|assumption]].
Qed.

Section WholeTexts.
Context {host : CaseConversion}.

(** A character is kept, and then it is no key of either table, or it is
    replaced by one printable ASCII character. *)
Lemma translate_char_cases ch :
  (translate_char ch = ch /\ has_key letterMap (toLowerCase ch) = false)
  \/ (exists x, translate_char ch = [x] /\ printable x).
Proof.
  rewrite translate_char_spec. unfold spec_translate_char. cbv zeta.
  destruct (has_key letterMap (toLowerCase ch)) eqn:Hl.
  - right.
    assert (Hv : us_unshifted (image letterMap (toLowerCase ch))).
    { apply (get_value letterMap (toLowerCase ch)); [apply letterMap_values|].
      now rewrite has_key_get, Hl. }
    destruct Hv as (u & -> & Hu & _).
    destruct (strict_eq ch (toLowerCase ch)).
    + exists u. split; [reflexivity|exact Hu].
    + eexists. split; [reflexivity|]. unfold printable.
      destruct ((0x61 <=? u) && (u <=? 0x7A)) eqn:E; lia.
  - destruct (has_key punctuationMap ch) eqn:Hp; [right|left; auto].
    assert (Hv : us_unshifted (image punctuationMap ch)).
    { apply (get_value punctuationMap ch); [apply punctuationMap_values|].
      now rewrite has_key_get, Hp. }
    destruct Hv as (u & -> & Hu & _). exists u. auto.
Qed.

(** The lower-case form of a Russian letter is a key of the letter map. *)
Lemma russian_letter_key u :
  russian_letter u -> has_key letterMap (toLowerCase [u]) = true.
Proof.
  intros Hu. rewrite toLowerCase_layout by (unfold layout_unit; unfold russian_letter in Hu; lia).
  apply small_letters_are_keys.
  unfold russian_letter in Hu. unfold simple_lower_unit.
  destruct ((0x41 <=? u) && (u <=? 0x5A)) eqn:E1; [lia|].
  destruct ((0x0410 <=? u) && (u <=? 0x042F)) eqn:E2; [lia|].
  destruct ((0x0400 <=? u) && (u <=? 0x040F)) eqn:E3; lia.
Qed.

(** A text valid under ['ru'] is translated to printable ASCII. *)
Lemma valid_ru_printable s :
  isValidForLanguage s (lit "ru") = true ->
  Forall printable (translateRuToEnWithPunctuation s).
Proof.
  intros Hvalid.
  rewrite isValidForLanguage_units, strict_eq_refl, forallb_forall in Hvalid.
  assert (Hunits : forall u, In u s -> russian_letter u \/ printable u).
  { intros u Hu. specialize (Hvalid u Hu).
    unfold accepts_unit, ru_accepts in Hvalid.
    unfold russian_letter, printable. lia. }
  unfold translateRuToEnWithPunctuation, Array_from, join.
  rewrite iterator_layout.
  - apply Forall_concat. rewrite map_map, Forall_map, Forall_forall.
    intros u Hu.
    destruct (translate_char_cases [u]) as [[-> Hkey] | (x & -> & Hx)].
    + destruct (Hunits u Hu) as [Hr | Hp];
        [|constructor; [exact Hp|constructor]].
      rewrite (russian_letter_key u Hr) in Hkey. discriminate.
    + constructor; [exact Hx|constructor].
  - apply Forall_forall. intros u Hu.
    destruct (Hunits u Hu) as [Hr | Hp];
      unfold layout_unit, russian_letter, printable in *; lia.
Qed.

(** X3: a text that is valid under ['ru'] is translated to printable ASCII
    only, so the result is valid under every other language. *)
Theorem translate_valid_ru s :
  isValidForLanguage s (lit "ru") = true ->
  Forall printable (translateRuToEnWithPunctuation s)
  /\ (forall lang, lang <> lit "ru" ->
      isValidForLanguage (translateRuToEnWithPunctuation s) lang = true).
Proof.
  intros Hvalid. pose proof (valid_ru_printable s Hvalid) as Hout.
  split; [exact Hout|].
  intros lang Hlang. apply strict_eq_neq in Hlang.
  rewrite isValidForLanguage_units, Hlang, forallb_forall.
  rewrite Forall_forall in Hout. intros u Hu. specialize (Hout u Hu).
  unfold accepts_unit, printable in *. lia.
Qed.

(** X4: whatever the text, no letter of the Russian alphabet is left in its
    translation. *)
Theorem translate_leaves_no_russian_letter s :
  Forall (fun u => ~ russian_letter u) (translateRuToEnWithPunctuation s).
Proof.
  unfold translateRuToEnWithPunctuation, Array_from, join.
  apply Forall_concat. rewrite Forall_map.
  eapply Forall_impl; [|apply iterator_shapes].
  intros ch Hshape.
  destruct (translate_char_cases ch) as [[-> Hkey] | (x & -> & Hx)].
  - destruct Hshape as [(u & ->) | (u & v & -> & Hu & Hv)].
    + constructor; [|constructor]. intros Hr.
      rewrite (russian_letter_key u Hr) in Hkey. discriminate.
    + unfold is_high_surrogate in Hu. unfold is_low_surrogate in Hv.
      constructor; [|constructor; [|constructor]];
        unfold russian_letter; lia.
  - constructor; [|constructor].
    unfold printable in Hx. unfold russian_letter. lia.
Qed.

(** X6: a translation is never longer, in code units, than the text; the
    limit the text area puts on the text holds for what is sent. *)
Theorem translate_not_longer s :
  (length (translateRuToEnWithPunctuation s) <= length s)%nat.
Proof.
  rewrite <- (iterator_concat s) at 2.
  unfold translateRuToEnWithPunctuation, Array_from, join.
  pose proof (iterator_shapes s) as Hshapes.
  induction Hshapes as [|ch chars Hch _ IH]; [constructor|].
  cbn [map concat]. rewrite !length_app.
  apply Nat.add_le_mono; [|exact IH].
  destruct (translate_char_shape ch) as [-> | (x & -> & _)]; [constructor|].
  destruct Hch as [(u & ->) | (u & v & -> & _)]; cbn; lia.
Qed.

(** X7: translation goes through concatenation, provided joining the two
    texts does not make a surrogate pair out of the end of the first and the
    start of the second. *)
Theorem translate_app s1 s2 :
  joins_pair s1 s2 = false ->
  translateRuToEnWithPunctuation (s1 ++ s2) =
  translateRuToEnWithPunctuation s1 ++ translateRuToEnWithPunctuation s2.
Proof.
  intros Hcut. unfold translateRuToEnWithPunctuation, Array_from, join.
  now rewrite (iterator_app s1 s2 Hcut), map_app, concat_app.
Qed.

End WholeTexts.

Lemma translate_valid_ru_witness :
  isValidForLanguage (lit "Привет, мир! 5") (lit "ru") = true
  /\ Forall printable
       (translateRuToEnWithPunctuation (host := simple_case)
          (lit "Привет, мир! 5"))
  /\ isValidForLanguage
       (translateRuToEnWithPunctuation (host := simple_case)
          (lit "Привет, мир! 5")) (lit "en") = true.
Proof.
  assert (Hvalid : isValidForLanguage (lit "Привет, мир! 5") (lit "ru") = true)
    by reflexivity.
  destruct (translate_valid_ru (host := simple_case) _ Hvalid) as [Hout Hen].
  split; [exact Hvalid|]. split; [exact Hout|].
  apply Hen. vm_compute. discriminate.
Defined.

Lemma translate_app_witness :
  joins_pair (lit "да, ") (lit "нет.") = false
  /\ translateRuToEnWithPunctuation (host := simple_case) (lit "да, нет.") =
     lit "lf? " ++ lit "ytn/".
Proof.
  assert (Hcut : joins_pair (lit "да, ") (lit "нет.") = false) by reflexivity.
  split; [exact Hcut|].
  exact (translate_app (host := simple_case) (lit "да, ") (lit "нет.") Hcut).
Defined.

Lemma translate_layout_units {host : CaseConversion} s :
  Forall layout_unit s ->
  translateRuToEnWithPunctuation s =
  concat (map (fun u => translate_char (host := simple_case) [u]) s).
Proof.
  intros Hall. rewrite (translate_layout s Hall).
  unfold translateRuToEnWithPunctuation, Array_from, join.
  now rewrite (iterator_layout s Hall), map_map.
Qed.

(** X5: an ASCII text is left as it is, unless it holds one of the seven
    ASCII characters the punctuation map rewrites; Latin letters and digits
    always pass unchanged. *)
Theorem translate_ascii_unchanged {host : CaseConversion} s :
  Forall (fun u => 0 <= u <= 0x7F /\ ~ rewritten_ascii u) s ->
  translateRuToEnWithPunctuation s = s.
Proof.
  intros Hall. rewrite translate_layout_units.
  - induction Hall as [|u s [Hu Hnot] _ IH]; [reflexivity|].
    cbn [map concat]. rewrite IH.
    pose proof
      (range_check
         (fun u => existsb (Z.eqb u) [0x22; 0x2C; 0x2E; 0x2F; 0x3A; 0x3B; 0x3F]
                   || strict_eq (translate_char (host := simple_case) [u]) [u])
         0 128 ltac:(vm_compute; reflexivity) u ltac:(lia)) as Hcheck.
    apply orb_true_iff in Hcheck as [Hex | Heq].
    + exfalso. apply Hnot. unfold rewritten_ascii.
      cbn [existsb] in Hex. lia.
    + apply strict_eq_eq in Heq. exact (f_equal (fun l => l ++ s) Heq).
  - eapply Forall_impl; [|exact Hall]. unfold layout_unit. intros u [Hu _]. lia.
Qed.

Lemma translate_ascii_unchanged_witness :
  translateRuToEnWithPunctuation (host := simple_case) (lit "Hello World 42!") =
  lit "Hello World 42!".
Proof.
  apply (translate_ascii_unchanged (host := simple_case)).
  apply Forall_forall. intros u Hu. vm_compute in Hu.
  unfold rewritten_ascii.
  repeat (destruct Hu as [<-|Hu]; [lia|]). contradiction.
Defined.

Lemma shift_safe_key u :
  shift_safe u -> translate_char (host := simple_case) [u] = [simple_key u].
Proof.
  intros Hu.
  pose proof
    (range_check
       (fun u => negb (is_shift_safe u)
                 || strict_eq (translate_char (host := simple_case) [u])
                      [simple_key u])
       0x0410 66 ltac:(vm_compute; reflexivity) u
       ltac:(unfold shift_safe in Hu; lia)) as Hcheck.
  cbv beta in Hcheck. apply shift_safe_iff in Hu. rewrite Hu in Hcheck.
  now apply strict_eq_eq in Hcheck.
Qed.

Lemma shift_safe_keys_distinct u v :
  shift_safe u -> shift_safe v -> simple_key u = simple_key v -> u = v.
Proof.
  intros Hu Hv.
  apply (NoDup_map_injective simple_key
           (filter is_shift_safe (zrange 0x0410 66))).
  - apply distinct_NoDup. vm_compute. reflexivity.
  - apply filter_In. split; [|now apply shift_safe_iff].
    unfold zrange. apply in_map_iff. exists (Z.to_nat (u - 0x0410)).
    unfold shift_safe in Hu. split; [lia|apply in_seq; lia].
  - apply filter_In. split; [|now apply shift_safe_iff].
    unfold zrange. apply in_map_iff. exists (Z.to_nat (v - 0x0410)).
    unfold shift_safe in Hv. split; [lia|apply in_seq; lia].
Qed.

Lemma translate_shift_safe {host : CaseConversion} s :
  Forall shift_safe s -> translateRuToEnWithPunctuation s = map simple_key s.
Proof.
  intros Hall. rewrite translate_layout_units.
  - induction Hall as [|u s Hu _ IH]; [reflexivity|].
    cbn [map concat]. rewrite IH.
    exact (f_equal (fun l => l ++ map simple_key s) (shift_safe_key u Hu)).
  - eapply Forall_impl; [|exact Hall]. apply shift_safe_layout.
Qed.

(** X8: on texts made of small Russian letters and of capital Russian
    letters other than Ё Х Ъ Ж Э Б Ю the translation is one-to-one. *)
Theorem translate_injective_shift_safe {host : CaseConversion} s1 s2 :
  Forall shift_safe s1 -> Forall shift_safe s2 ->
  translateRuToEnWithPunctuation s1 = translateRuToEnWithPunctuation s2 ->
  s1 = s2.
Proof.
  intros H1 H2. rewrite (translate_shift_safe s1 H1), (translate_shift_safe s2 H2).
  revert s2 H2. induction H1 as [|u s1 Hu _ IH]; intros s2 H2.
  - destruct s2; [reflexivity|discriminate].
  - destruct H2 as [|v s2 Hv H2]; [discriminate|].
    cbn [map]. intros [= Huv Hrest].
    f_equal; [now apply shift_safe_keys_distinct|now apply IH].
Qed.


Lemma translate_injective_shift_safe_witness :
  Forall shift_safe (lit "Привет")
  /\ translateRuToEnWithPunctuation (host := simple_case) (lit "Привет") =
     translateRuToEnWithPunctuation (host := simple_case)
       [0x041F; 0x0440; 0x0438; 0x0432; 0x0435; 0x0442]
  /\ lit "Привет" = [0x041F; 0x0440; 0x0438; 0x0432; 0x0435; 0x0442].
Proof.
  assert (Hsafe : Forall shift_safe (lit "Привет")).
  { apply Forall_forall. intros u Hu. apply shift_safe_iff.
    vm_compute in Hu.
    repeat (destruct Hu as [<-|Hu]; [reflexivity|]). contradiction. }
  assert (Hout :
    translateRuToEnWithPunctuation (host := simple_case) (lit "Привет") =
    translateRuToEnWithPunctuation (host := simple_case)
      [0x041F; 0x0440; 0x0438; 0x0432; 0x0435; 0x0442]) by reflexivity.
  split; [exact Hsafe|]. split; [exact Hout|].
  exact (translate_injective_shift_safe (host := simple_case)
           (lit "Привет") [0x041F; 0x0440; 0x0438; 0x0432; 0x0435; 0x0442]
           Hsafe Hsafe Hout).
Defined.



(** ** The life of the dialog *)

Section DialogLife.
Context {host : CaseConversion}.

Lemma play_invariant (P : World -> Prop) :
  (forall a w, P w -> P (perform a w)) ->
  forall acts w, P w -> P (play acts w).
Proof.
  intros Hstep acts. unfold play.
  induction acts as [|a acts IH]; intros w Hw; cbn [fold_left]; auto.
Qed.

Lemma play_app acts1 acts2 w :
  play (acts1 ++ acts2) w = play acts2 (play acts1 w).
Proof. apply fold_left_app. Qed.

(** A passed guard, spelled out. *)
Lemma submit_cases w :
  (submit w = w
   /\ (isLoading (ui w) = true \/ inputValue (ui w) = []))
  \/ (submit w = (setIsLoading true ;; paste (textToSend (ui w))) w
      /\ isLoading (ui w) = false /\ inputValue (ui w) <> []).
Proof.
  unfold submit. destruct (isLoading (ui w)) eqn:Hl; [left; auto|].
  destruct (inputValue (ui w)) eqn:Hv; [left; auto|].
  right. cbn. repeat split; congruence.
Qed.

Lemma perform_verdict a w :
  status (ui w) = verdict (ui w) ->
  status (ui (perform a w)) = verdict (ui (perform a w)).
Proof.
  intros Hw. destruct a as [| |[value|value| |[rsp|]]]; cbn [perform step].
  - exact Hw.
  - exact Hw.
  - reflexivity.
  - unfold onLanguageChange, verdict, seq. cbn.
    destruct (inputValue (ui w)); reflexivity.
  - destruct (submit_cases w) as [[-> _] | [-> _]]; exact Hw.
  - unfold settle, on_then, on_finally, seq.
    destruct (negb (code rsp =? 0)); [exact Hw|reflexivity].
  - exact Hw.
Qed.

(** X10: from the first render on, whatever happens, the status shown on
    the text area is the verdict of the validator on the present text under
    the present language. *)
Theorem status_is_verdict acts :
  status (ui (play acts initial)) = verdict (ui (play acts initial)).
Proof.
  apply (play_invariant (fun w => status (ui w) = verdict (ui w))).
  - exact perform_verdict.
  - reflexivity.
Qed.

Lemma translate_nonempty s :
  s <> [] -> translateRuToEnWithPunctuation s <> [].
Proof.
  intros Hs Hout. apply Hs, iterator_nil.
  pose proof (translate_characters s) as Hchars.
  rewrite Hout in Hchars. unfold Array_from in Hchars.
  destruct (string_iterator s); [reflexivity|discriminate].
Qed.

Lemma textToSend_nonempty d : inputValue d <> [] -> textToSend d <> [].
Proof.
  intros Hd. unfold textToSend.
  destruct (strict_eq (language d) (lit "ru")); [|exact Hd].
  now apply translate_nonempty.
Qed.

(** X11: the paste operation is never called with an empty text. *)
Theorem never_pastes_empty acts :
  Forall (fun text => text <> []) (pasted (play acts initial)).
Proof.
  apply (play_invariant (fun w => Forall (fun text => text <> []) (pasted w)));
    [|constructor].
  intros a w Hw. destruct a as [| |[value|value| |[rsp|]]]; cbn [perform step];
    try exact Hw.
  - destruct (submit_cases w) as [[-> _] | [-> (_ & Hv)]]; [exact Hw|].
    unfold seq, paste. cbn [pasted setIsLoading update ui].
    apply Forall_app. split; [exact Hw|].
    constructor; [|constructor]. now apply textToSend_nonempty.
  - unfold settle, on_then, on_finally, seq.
    destruct (negb (code rsp =? 0)); exact Hw.
Qed.

Lemma settle_loading_false s w : isLoading (ui (settle s w)) = false.
Proof.
  destruct s as [rsp|]; [|reflexivity].
  unfold settle, on_then, on_finally, seq.
  destruct (negb (code rsp =? 0)); reflexivity.
Qed.

Lemma in_order_balance acts : forall w n,
  in_order acts w ->
  length (pasted w) = (n + in_flight w)%nat ->
  length (pasted (play acts w)) =
  (n + length (filter settles acts) + in_flight (play acts w))%nat.
Proof.
  induction acts as [|a acts IH]; intros w n Hord Hw.
  - cbn. lia.
  - destruct Hord as [Hsettle Hord]. cbn [play fold_left filter].
    change (fold_left (fun w a => perform a w) acts (perform a w))
      with (play acts (perform a w)).
    destruct a as [| |[value|value| |s]]; cbn [settles] in *.
    + rewrite (IH _ n Hord); [lia|exact Hw].
    + rewrite (IH _ n Hord); [lia|exact Hw].
    + rewrite (IH _ n Hord); [lia|exact Hw].
    + rewrite (IH _ n Hord); [lia|exact Hw].
    + rewrite (IH _ n Hord); [lia|].
      cbn [perform step].
      destruct (submit_cases w) as [[-> _] | [-> (Hl & _)]]; [exact Hw|].
      unfold in_flight in *. rewrite Hl in Hw.
      unfold seq, paste. cbn. rewrite length_app. cbn. lia.
    + specialize (Hsettle eq_refl).
      rewrite (IH _ (S n) Hord); [cbn [length]; lia|].
      unfold in_flight in *. rewrite Hsettle in Hw.
      cbn [perform step]. rewrite settle_loading_false.
      replace (pasted (settle s w)) with (pasted w); [lia|].
      destruct s as [rsp|]; [|reflexivity].
      unfold settle, on_then, on_finally, seq.
      destruct (negb (code rsp =? 0)); reflexivity.
Qed.

End DialogLife.

Section DialogRuns.
Context {host : CaseConversion}.

(** X12: as long as a promise settles only while a call is in flight, the
    calls made to the paste operation are the settlements received plus the
    one call in flight, if any: a second call is never made before the
    first is settled. *)
Theorem one_call_in_flight acts :
  in_order acts initial ->
  length (pasted (play acts initial)) =
  (length (filter settles acts) + in_flight (play acts initial))%nat.
Proof.
  intros Hord. now apply (in_order_balance acts initial 0%nat).
Qed.

(** X13: a rejected promise undoes the submission: the dialog is as it was
    before, with no message shown; a response with a non-zero code differs
    from that only by the error message. *)
Theorem failed_submit_restores w :
  isLoading (ui w) = false ->
  ui (settle Rejected (submit w)) = ui w
  /\ (forall rsp, code rsp <> 0 ->
      ui (settle (Fulfilled rsp) (submit w)) = ui (setErrMsg (msg rsp) w)).
Proof.
  intros Hl. destruct w as [[open value lang st loading err] calls].
  cbn in Hl. subst loading. split.
  - destruct (submit_cases
                {| ui := {| isModalOpen := open; inputValue := value;
                            language := lang; status := st;
                            isLoading := false; errMsg := err |};
                   pasted := calls |}) as [[-> _] | [-> _]]; reflexivity.
  - intros rsp Hcode. apply Z.eqb_neq in Hcode.
    unfold settle, on_then, on_finally, seq. rewrite Hcode. cbn [negb].
    destruct (submit_cases
                {| ui := {| isModalOpen := open; inputValue := value;
                            language := lang; status := st;
                            isLoading := false; errMsg := err |};
                   pasted := calls |}) as [[-> _] | [-> _]]; reflexivity.
Qed.

(** X14: the error message changes only when a response arrives: typing,
    changing the language, submitting again, closing and reopening the
    modal, or a rejected promise leave it as it is. *)
Theorem error_message_stays acts w :
  forallb (fun a => negb (fulfils a)) acts = true ->
  errMsg (ui (play acts w)) = errMsg (ui w).
Proof.
  revert w. unfold play.
  induction acts as [|a acts IH]; intros w Hacts; [reflexivity|].
  cbn [forallb] in Hacts. apply andb_true_iff in Hacts as [Ha Hacts].
  cbn [fold_left]. rewrite (IH _ Hacts).
  destruct a as [| |[value|value| |[rsp|]]]; try reflexivity;
    [|discriminate].
  cbn [perform step].
  destruct (submit_cases w) as [[-> _] | [-> _]]; reflexivity.
Qed.

(** X15: closing and reopening the modal changes nothing but the open flag:
    text, language, status, loading flag and error message are kept, and no
    call is made. *)
Theorem toggling_keeps_state acts w :
  forallb toggles acts = true ->
  setIsModalOpen (isModalOpen (ui w)) (play acts w) = w.
Proof.
  intros Hacts.
  assert (Hgen : forall b,
    setIsModalOpen b (play acts w) = setIsModalOpen b w).
  { revert w. unfold play.
    induction acts as [|a acts IH]; intros w b; [reflexivity|].
    cbn [forallb] in Hacts. apply andb_true_iff in Hacts as [Ha Hacts].
    cbn [fold_left]. rewrite (IH Hacts).
    destruct a; [reflexivity|reflexivity|discriminate]. }
  rewrite Hgen. destruct w as [[open value lang st loading err] calls].
  reflexivity.
Qed.

(** X16: from the first render on, whenever the text area shows no error,
    a submission that passes the guard hands pure ASCII to the paste
    operation, whichever language is selected. *)
Theorem clean_status_sends_ascii acts :
  status (ui (play acts initial)) = StatusNone ->
  isLoading (ui (play acts initial)) = false ->
  inputValue (ui (play acts initial)) <> [] ->
  exists text,
    pasted (submit (play acts initial)) =
    pasted (play acts initial) ++ [text]
    /\ Forall (fun u => u <= 0x7F) text.
Proof.
  intros Hst Hl Hv.
  assert (Hverdict : status (ui (play acts initial)) =
                     verdict (ui (play acts initial))).
  { apply (play_invariant (fun w => status (ui w) = verdict (ui w)));
      [exact perform_verdict|reflexivity]. }
  revert Hst Hl Hv Hverdict. generalize (play acts initial). intros w.
  intros Hst Hl Hv Hverdict.
  exists (textToSend (ui w)). split.
  - rewrite (submit_accepted w Hl Hv). reflexivity.
  - rewrite Hst in Hverdict. unfold verdict in Hverdict.
    destruct (isValidForLanguage (inputValue (ui w)) (language (ui w)))
      eqn:Hvalid; [|discriminate].
    unfold textToSend.
    destruct (strict_eq (language (ui w)) (lit "ru")) eqn:Hlang.
    + apply strict_eq_eq in Hlang. rewrite Hlang in Hvalid.
      eapply Forall_impl; [|apply (valid_ru_printable _ Hvalid)].
      unfold printable. intros u Hu. lia.
    + rewrite isValidForLanguage_units, Hlang, forallb_forall in Hvalid.
      apply Forall_forall. intros u Hu. specialize (Hvalid u Hu).
      unfold accepts_unit in Hvalid. lia.
Qed.

End DialogRuns.


Lemma one_call_in_flight_witness :
  in_order session initial
  /\ pasted (play session initial) = [lit "Ghbdtn"; lit "Ghbdtn"]
  /\ length (pasted (play session initial)) = 2%nat.
Proof.
  assert (Hord : in_order session initial).
  { cbn [session refused typing app in_order settles].
    repeat split; try discriminate; intros _; reflexivity. }
  split; [exact Hord|]. split; [reflexivity|].
  exact (one_call_in_flight session Hord).
Defined.

Lemma failed_submit_restores_witness :
  isLoading (ui typing_ru) = false
  /\ ui (settle Rejected (submit typing_ru)) = ui typing_ru
  /\ errMsg (ui (settle (Fulfilled rsp_busy) (submit typing_ru))) =
     lit "device busy".
Proof.
  assert (Hl : isLoading (ui typing_ru) = false) by reflexivity.
  destruct (failed_submit_restores typing_ru Hl) as [Hrej Hbusy].
  split; [exact Hl|]. split; [exact Hrej|].
  rewrite (Hbusy rsp_busy ltac:(cbn; lia)). reflexivity.
Defined.

Lemma error_message_stays_witness :
  errMsg (ui (play refused initial)) = lit "device busy"
  /\ errMsg
       (ui (play [Act (Change (lit "Пока")); Act Submit;
                  Act (PasteSettled Rejected); Cancel; Open]
              (play refused initial))) = lit "device busy".
Proof.
  split; [reflexivity|].
  exact (error_message_stays
           [Act (Change (lit "Пока")); Act Submit;
            Act (PasteSettled Rejected); Cancel; Open]
           (play refused initial) eq_refl).
Defined.

Lemma toggling_keeps_state_witness :
  inputValue (ui (play [Cancel; Open] (play refused initial))) = lit "Привет"
  /\ setIsModalOpen true (play [Cancel; Open] (play refused initial)) =
     play refused initial.
Proof.
  split; [reflexivity|].
  exact (toggling_keeps_state [Cancel; Open] (play refused initial) eq_refl).
Defined.

Lemma clean_status_sends_ascii_witness :
  status (ui (play typing initial)) = StatusNone
  /\ exists text,
       pasted (submit (play typing initial)) =
       pasted (play typing initial) ++ [text]
       /\ Forall (fun u => u <= 0x7F) text.
Proof.
  split; [reflexivity|].
  exact (clean_status_sends_ascii typing eq_refl eq_refl
           ltac:(vm_compute; discriminate)).
Defined.
